(** * ZenSpace AI: a shallow embedding of the media player, the chat panel,
    the session generator and the application shell, with their properties.

    Times (the audio clock [currentTime], the start epoch, the pause offset)
    and the progress percentage are JavaScript numbers; they are modelled as
    rationals [Q], so the arithmetic of [updateProgress] is exact. *)

From Stdlib Require Import String Ascii List Bool ZArith QArith Lia Lqa.
Import ListNotations.
Open Scope string_scope.
Open Scope list_scope.

(* ------------------------------------------------------------------ *)
(** ** Strings: [toLowerCase], [trim], [includes] *)

Module JsString.

Definition lower_ascii (c : ascii) : ascii :=
  let n := nat_of_ascii c in
  if (65 <=? n)%nat && (n <=? 90)%nat then ascii_of_nat (n + 32) else c.

Fixpoint toLowerCase (s : string) : string :=
  match s with
  | EmptyString => EmptyString
  | String c s' => String (lower_ascii c) (toLowerCase s')
  end.

(** The white-space characters removed by [trim] (ASCII part). *)
Definition is_ws (c : ascii) : bool :=
  let n := nat_of_ascii c in
  (n =? 32)%nat || (n =? 9)%nat || (n =? 10)%nat || (n =? 11)%nat
  || (n =? 12)%nat || (n =? 13)%nat.

Fixpoint drop_ws (l : list ascii) : list ascii :=
  match l with
  | [] => []
  | c :: l' => if is_ws c then drop_ws l' else l
  end.

Definition trim (s : string) : string :=
  string_of_list_ascii
    (rev (drop_ws (rev (drop_ws (list_ascii_of_string s))))).

Fixpoint startsWith (s p : string) : bool :=
  match p, s with
  | EmptyString, _ => true
  | String _ _, EmptyString => false
  | String a p', String b s' => Ascii.eqb a b && startsWith s' p'
  end.

(** [s.includes(p)]. *)
Fixpoint includes (s p : string) : bool :=
  startsWith s p ||
  match s with
  | EmptyString => false
  | String _ s' => includes s' p
  end.

End JsString.
Import JsString.

(* ------------------------------------------------------------------ *)
(** ** Data model ([types.ts]) *)

(** An [AudioBuffer]: its [duration] is [length / sampleRate]. *)
Record AudioBuffer := { length : N; sampleRate : positive }.

Definition duration (b : AudioBuffer) : Q := Z.of_N (length b) # sampleRate b.

Record MeditationSession := {
  id : string;
  title : string;
  description : string;
  imagePrompt : string;
  script : string;
  imageUrl : option string;
  audioBuffer : option AudioBuffer
}.

(* ------------------------------------------------------------------ *)
(** ** The media player ([MediaPlayer.tsx]) *)

Module Player.

(** An [AudioBufferSourceNode] started at [srcOffset]. *)
Record Source := { srcOffset : Q; srcStopped : bool }.

(** The component's state: the five [useState] cells followed by the refs.
    [audioContext] is [audioContextRef.current], represented by its
    [currentTime]; [gainNode] is [gainNodeRef.current], represented by its
    gain value; [ambientPlaying] says whether the ambient [Audio] element is
    playing; [rafPending] is the browser-side pending animation frame (its
    id); [recGen] numbers the instances of the speech-recognition effect:
    the handlers of instance [g] see [isEffectActive = true] exactly while
    [g = recGen].  The [isPlayingRef], [isMutedRef], [isAmbientOnRef] shadow
    refs are synchronised after every render, so they are read as the state
    itself. *)
Record Player := {
  isPlaying : bool;
  isMuted : bool;
  isAmbientOn : bool;
  progress : Q;
  isListening : bool;
  audioContext : option Q;
  sourceRef : option Source;
  gainNode : option Q;
  ambientPlaying : bool;
  startTime : Q;
  pauseTime : Q;
  animationFrame : nat;
  rafPending : option nat;
  recGen : nat
}.

Definition set_isPlaying v s := Build_Player v (isMuted s) (isAmbientOn s) (progress s) (isListening s) (audioContext s) (sourceRef s) (gainNode s) (ambientPlaying s) (startTime s) (pauseTime s) (animationFrame s) (rafPending s) (recGen s).
Definition set_isMuted v s := Build_Player (isPlaying s) v (isAmbientOn s) (progress s) (isListening s) (audioContext s) (sourceRef s) (gainNode s) (ambientPlaying s) (startTime s) (pauseTime s) (animationFrame s) (rafPending s) (recGen s).
Definition set_isAmbientOn v s := Build_Player (isPlaying s) (isMuted s) v (progress s) (isListening s) (audioContext s) (sourceRef s) (gainNode s) (ambientPlaying s) (startTime s) (pauseTime s) (animationFrame s) (rafPending s) (recGen s).
Definition set_progress v s := Build_Player (isPlaying s) (isMuted s) (isAmbientOn s) v (isListening s) (audioContext s) (sourceRef s) (gainNode s) (ambientPlaying s) (startTime s) (pauseTime s) (animationFrame s) (rafPending s) (recGen s).
Definition set_isListening v s := Build_Player (isPlaying s) (isMuted s) (isAmbientOn s) (progress s) v (audioContext s) (sourceRef s) (gainNode s) (ambientPlaying s) (startTime s) (pauseTime s) (animationFrame s) (rafPending s) (recGen s).
Definition set_audioContext v s := Build_Player (isPlaying s) (isMuted s) (isAmbientOn s) (progress s) (isListening s) v (sourceRef s) (gainNode s) (ambientPlaying s) (startTime s) (pauseTime s) (animationFrame s) (rafPending s) (recGen s).
Definition set_sourceRef v s := Build_Player (isPlaying s) (isMuted s) (isAmbientOn s) (progress s) (isListening s) (audioContext s) v (gainNode s) (ambientPlaying s) (startTime s) (pauseTime s) (animationFrame s) (rafPending s) (recGen s).
Definition set_gainNode v s := Build_Player (isPlaying s) (isMuted s) (isAmbientOn s) (progress s) (isListening s) (audioContext s) (sourceRef s) v (ambientPlaying s) (startTime s) (pauseTime s) (animationFrame s) (rafPending s) (recGen s).
Definition set_ambientPlaying v s := Build_Player (isPlaying s) (isMuted s) (isAmbientOn s) (progress s) (isListening s) (audioContext s) (sourceRef s) (gainNode s) v (startTime s) (pauseTime s) (animationFrame s) (rafPending s) (recGen s).
Definition set_startTime v s := Build_Player (isPlaying s) (isMuted s) (isAmbientOn s) (progress s) (isListening s) (audioContext s) (sourceRef s) (gainNode s) (ambientPlaying s) v (pauseTime s) (animationFrame s) (rafPending s) (recGen s).
Definition set_pauseTime v s := Build_Player (isPlaying s) (isMuted s) (isAmbientOn s) (progress s) (isListening s) (audioContext s) (sourceRef s) (gainNode s) (ambientPlaying s) (startTime s) v (animationFrame s) (rafPending s) (recGen s).
Definition set_animationFrame v s := Build_Player (isPlaying s) (isMuted s) (isAmbientOn s) (progress s) (isListening s) (audioContext s) (sourceRef s) (gainNode s) (ambientPlaying s) (startTime s) (pauseTime s) v (rafPending s) (recGen s).
Definition set_rafPending v s := Build_Player (isPlaying s) (isMuted s) (isAmbientOn s) (progress s) (isListening s) (audioContext s) (sourceRef s) (gainNode s) (ambientPlaying s) (startTime s) (pauseTime s) (animationFrame s) v (recGen s).
Definition set_recGen v s := Build_Player (isPlaying s) (isMuted s) (isAmbientOn s) (progress s) (isListening s) (audioContext s) (sourceRef s) (gainNode s) (ambientPlaying s) (startTime s) (pauseTime s) (animationFrame s) (rafPending s) v.

Section WithSession.

(** The [session] prop of the component. *)
Variable session : MeditationSession.

(** [session.audioBuffer?.duration || 1] *)
Definition dur : Q :=
  match audioBuffer session with
  | Some b => if Qeq_bool (duration b) 0 then 1 else duration b
  | None => 1
  end.

(** [(current / duration) * 100] *)
Definition percent_of (current : Q) : Q := current / dur * 100.

(** [animationFrameRef.current = requestAnimationFrame(updateProgress)]:
    the browser returns a fresh, non-zero id. *)
Definition requestAnimationFrame (s : Player) : Player :=
  let fid := S (animationFrame s) in
  set_rafPending (Some fid) (set_animationFrame fid s).

Definition cancelAnimationFrame (fid : nat) (s : Player) : Player :=
  match rafPending s with
  | Some p => if Nat.eqb p fid then set_rafPending None s else s
  | None => s
  end.

(** [updateProgress] (lines 103-117). *)
Definition updateProgress (s : Player) : Player :=
  match audioContext s with
  | None => s
  | Some currentTime =>
      let current := currentTime - startTime s in
      let percent := percent_of current in
      if Qle_bool 100 percent then
        set_pauseTime 0 (set_progress 100 (set_isPlaying false s))
      else requestAnimationFrame (set_progress percent s)
  end.

(** [playAudio] (lines 84-123). [resume()] of a suspended context touches no
    modelled field. *)
Definition playAudio (s : Player) : Player :=
  match audioContext s, audioBuffer session, gainNode s with
  | Some currentTime, Some _, Some _ =>
      let offset := pauseTime s in
      let s1 := set_sourceRef (Some {| srcOffset := offset; srcStopped := false |}) s in
      let s2 := set_startTime (currentTime - offset) s1 in
      let s3 := set_isPlaying true s2 in
      updateProgress s3
  | _, _, _ => s
  end.

(** [pauseAudio] (lines 125-132). *)
Definition pauseAudio (s : Player) : Player :=
  match sourceRef s, audioContext s with
  | Some src, Some currentTime =>
      let s1 := set_sourceRef (Some {| srcOffset := srcOffset src; srcStopped := true |}) s in
      let s2 := set_pauseTime (currentTime - startTime s) s1 in
      let s3 := set_isPlaying false s2 in
      if Nat.eqb (animationFrame s3) 0 then s3
      else cancelAnimationFrame (animationFrame s3) s3
  | _, _ => s
  end.

Definition togglePlay (s : Player) : Player :=
  if isPlaying s then pauseAudio s else playAudio s.

Definition toggleMute (s : Player) : Player :=
  match gainNode s with
  | Some _ =>
      let nextState := negb (isMuted s) in
      set_isMuted nextState (set_gainNode (Some (if nextState then 0 else 1)) s)
  | None => s
  end.

Definition toggleAmbient (s : Player) : Player :=
  set_isAmbientOn (negb (isAmbientOn s)) s.

Definition toggleVoiceControl (s : Player) : Player :=
  set_isListening (negb (isListening s)) s.

(** [recognition.onresult] (lines 181-204), given the transcript of the
    last result. *)
Definition onresult (transcript : string) (s : Player) : Player :=
  let command := trim (toLowerCase transcript) in
  if includes command "pause" || includes command "stop" || includes command "wait" then
    (if isPlaying s then pauseAudio s else s)
  else if includes command "play" || includes command "start"
          || includes command "resume" || includes command "begin" then
    (if negb (isPlaying s) then playAudio s else s)
  else if includes command "mute" || includes command "quiet" || includes command "silence" then
    (if negb (isMuted s) then toggleMute s else s)
  else if includes command "unmute" || includes command "sound" || includes command "volume" then
    (if isMuted s then toggleMute s else s)
  else if includes command "nature on" || includes command "ambient on"
          || includes command "background on" then
    (if negb (isAmbientOn s) then set_isAmbientOn true s else s)
  else if includes command "nature off" || includes command "ambient off"
          || includes command "background off" then
    (if isAmbientOn s then set_isAmbientOn false s else s)
  else s.

(** [recognition.onerror] (lines 206-219) of the recognizer installed by
    effect instance [gen]; logging is not modelled. *)
Definition onerror (gen : nat) (error : string) (s : Player) : Player :=
  if String.eqb error "no-speech" || String.eqb error "aborted" then s
  else if String.eqb error "not-allowed" || String.eqb error "service-not-allowed" then
    (if Nat.eqb gen (recGen s) then set_isListening false s else s)
  else s.

(** The audio clock advances by [dt]. *)
Definition advance (dt : Q) (s : Player) : Player :=
  set_audioContext (option_map (fun t => t + dt) (audioContext s)) s.

(** An animation frame fires: the pending [updateProgress] runs. *)
Definition onFrame (s : Player) : Player :=
  match rafPending s with
  | Some _ => updateProgress (set_rafPending None s)
  | None => s
  end.

Inductive Event :=
| EvTogglePlay
| EvToggleMute
| EvToggleAmbient
| EvToggleVoice
| EvFrame
| EvAdvance (dt : Q)
| EvResult (transcript : string)
| EvError (gen : nat) (error : string).

Definition apply_event (ev : Event) (s : Player) : Player :=
  match ev with
  | EvTogglePlay => togglePlay s
  | EvToggleMute => toggleMute s
  | EvToggleAmbient => toggleAmbient s
  | EvToggleVoice => toggleVoiceControl s
  | EvFrame => onFrame s
  | EvAdvance dt => advance dt s
  | EvResult t => onresult t s
  | EvError g e => onerror g e s
  end.

(** The effects that run after a render in which their dependencies changed:
    the ambient sync effect [[isPlaying, isAmbientOn]] (lines 57-63), whose
    [play()] request succeeds when [ok] holds (a rejected request is logged
    and ignored), and the speech-recognition effect [[isListening, ...]]
    (lines 165-252), whose clean-up deactivates the previous instance. *)
Definition commit (ok : bool) (old s : Player) : Player :=
  let s1 :=
    if Bool.eqb (isPlaying old) (isPlaying s) && Bool.eqb (isAmbientOn old) (isAmbientOn s)
    then s
    else set_ambientPlaying (if isPlaying s && isAmbientOn s then ok else false) s in
  if Bool.eqb (isListening old) (isListening s1) then s1
  else set_recGen (S (recGen s1)) s1.

Definition step (ok : bool) (ev : Event) (s : Player) : Player :=
  commit ok s (apply_event ev s).

(** The state of the first render, after the mount effects have created the
    ambient element (paused), the audio context (clock at 0) and the gain
    node (gain 1). *)
Definition initial : Player :=
  {| isPlaying := false; isMuted := false; isAmbientOn := false; progress := 0;
     isListening := false; audioContext := Some 0; sourceRef := None;
     gainNode := Some 1; ambientPlaying := false; startTime := 0; pauseTime := 0;
     animationFrame := 0; rafPending := None; recGen := 0 |}.

(** Mounting: the audio-context effect auto-plays (line 72). *)
Definition mount (ok : bool) : Player := commit ok initial (playAudio initial).

Definition event_ok (ev : Event) : Prop :=
  match ev with
  | EvAdvance dt => 0 <= dt
  | _ => True
  end.

(** The states reachable from mounting, with [amb] constraining the outcomes
    of the ambient [play()] requests. *)
Inductive reach (amb : bool -> Prop) : Player -> Prop :=
| reach_mount ok : amb ok -> reach amb (mount ok)
| reach_step ok ev s : reach amb s -> amb ok -> event_ok ev -> reach amb (step ok ev s).

Definition reachable := reach (fun _ => True).

(** The dispatcher as the spec describes it: the keyword sets in priority
    order, each with the condition under which its command fires and the
    action it fires; only the first set one of whose keywords occurs in the
    command is considered. *)
Definition pause_keywords := ["pause"; "stop"; "wait"].
Definition play_keywords := ["play"; "start"; "resume"; "begin"].
Definition mute_keywords := ["mute"; "quiet"; "silence"].
Definition unmute_keywords := ["unmute"; "sound"; "volume"].
Definition ambient_on_keywords := ["nature on"; "ambient on"; "background on"].
Definition ambient_off_keywords := ["nature off"; "ambient off"; "background off"].

Definition keyword_sets : list (list string * (Player -> bool) * (Player -> Player)) :=
  [ (pause_keywords, isPlaying, pauseAudio);
    (play_keywords, (fun s => negb (isPlaying s)), playAudio);
    (mute_keywords, (fun s => negb (isMuted s)), toggleMute);
    (unmute_keywords, isMuted, toggleMute);
    (ambient_on_keywords, (fun s => negb (isAmbientOn s)), set_isAmbientOn true);
    (ambient_off_keywords, isAmbientOn, set_isAmbientOn false) ].

Definition first_match (transcript : string)
    : option (list string * (Player -> bool) * (Player -> Player)) :=
  let command := trim (toLowerCase transcript) in
  find (fun '(kws, _, _) => existsb (includes command) kws) keyword_sets.

Definition dispatch_spec (transcript : string) (s : Player) : Player :=
  match first_match transcript with
  | Some (_, guard, action) => if guard s then action s else s
  | None => s
  end.

(** The command's condition fails for the current state (or no set
    matches): the command names the state the player is already in. *)
Definition redundant_command (transcript : string) (s : Player) : bool :=
  match first_match transcript with
  | Some (_, guard, _) => negb (guard s)
  | None => true
  end.

Definition is_permission_error (error : string) : bool :=
  String.eqb error "not-allowed" || String.eqb error "service-not-allowed".

End WithSession.
End Player.

(* ------------------------------------------------------------------ *)
(** ** The chat panel ([ChatBot.tsx]) *)

Module Chat.

Inductive Role := user | model.

Record Message := { role : Role; text : string; timestamp : Z }.

Definition greeting_text : string :=
  "Hello! I'm your mindfulness companion. How are you feeling today?".

Definition failure_text : string :=
  "I'm having trouble connecting right now. Please try again.".

Record ChatState := { input : string; messages : list Message; isLoading : bool }.

(** The first render at time [t0]. *)
Definition initial (t0 : Z) : ChatState :=
  {| input := ""; messages := [{| role := model; text := greeting_text; timestamp := t0 |}];
     isLoading := false |}.

(** How the awaited [sendChatMessage] settles: it resolves with [result.text]
    (a string or [undefined]) or it rejects. *)
Inductive Reply := Responded (responseText : option string) | Failed.

(** JavaScript truthiness of a [string | undefined]. *)
Definition truthy (o : option string) : bool :=
  match o with
  | Some r => negb (String.eqb r "")
  | None => false
  end.

Definition setInput (v : string) (s : ChatState) : ChatState :=
  {| input := v; messages := messages s; isLoading := isLoading s |}.

(** [handleSend] (lines 22-49) run to completion: the user message is
    stamped [t1], the reply [t2]. *)
Definition handleSend (t1 t2 : Z) (reply : Reply) (s : ChatState) : ChatState :=
  if String.eqb (trim (input s)) "" || isLoading s then s
  else
    let userMsg := {| role := user; text := input s; timestamp := t1 |} in
    let msgs := messages s ++ [userMsg] in
    let msgs' :=
      match reply with
      | Responded responseText =>
          match responseText with
          | Some r => if truthy responseText
                      then msgs ++ [{| role := model; text := r; timestamp := t2 |}]
                      else msgs
          | None => msgs
          end
      | Failed => msgs ++ [{| role := model; text := failure_text; timestamp := t2 |}]
      end in
    {| input := ""; messages := msgs'; isLoading := false |}.

(** One exchange: the user types [typed] and sends it. *)
Record Exchange := { typed : string; sentAt : Z; repliedAt : Z; reply : Reply }.

Definition exchange (s : ChatState) (e : Exchange) : ChatState :=
  handleSend (sentAt e) (repliedAt e) (reply e) (setInput (typed e) s).

Definition run (t0 : Z) (es : list Exchange) : ChatState :=
  fold_left exchange es (initial t0).

(** The messages one exchange contributes, as the spec describes them. *)
Definition reply_messages (t2 : Z) (r : Reply) : list Message :=
  match r with
  | Responded (Some txt) =>
      if truthy (Some txt) then [{| role := model; text := txt; timestamp := t2 |}] else []
  | Responded None => []
  | Failed => [{| role := model; text := failure_text; timestamp := t2 |}]
  end.

Definition exchange_messages (e : Exchange) : list Message :=
  {| role := user; text := typed e; timestamp := sentAt e |}
    :: reply_messages (repliedAt e) (reply e).

(** A reply that is a non-empty response or a failure. *)
Definition answered (r : Reply) : bool :=
  match r with
  | Responded o => truthy o
  | Failed => true
  end.

End Chat.

(* ------------------------------------------------------------------ *)
(** ** The session generator ([Generator.tsx]) *)

Module Generator.

Record Plan := { plan_title : string; plan_description : string;
                 plan_script : string; plan_imagePrompt : string }.

Record GeneratorState := {
  isGeneratingScript : bool;
  isGeneratingImage : bool;
  isGeneratingAudio : bool;
  error : option string
}.

(** How an awaited service call settles. *)
Inductive Result (A : Type) := Resolved (a : A) | Rejected.
Arguments Resolved {A} a.
Arguments Rejected {A}.

(** The service calls issued, in order. *)
Inductive Call :=
| CallPlan (userPrompt : string)
| CallImage (prompt : string)
| CallAudio (script : string).

Definition generic_error : string :=
  "Something went wrong creating your session. Please try again.".

Definition fallback_image : string := "https://picsum.photos/1920/1080".

Definition failed_status : GeneratorState :=
  {| isGeneratingScript := false; isGeneratingImage := false;
     isGeneratingAudio := false; error := Some generic_error |}.

(** The result of a run: final status, calls issued, and the session handed
    to [onSessionCreated], if any. *)
Record Run := { status : GeneratorState; calls : list Call; handed : option MeditationSession }.

(** [handleGenerate] (lines 364-409) run to completion. [now] is
    [Date.now().toString()]; [plan], [image] and [audio] are how the three
    service calls settle. *)
Definition handleGenerate (prompt now : string) (plan : Result Plan)
    (image : Result string) (audio : Result AudioBuffer) (st : GeneratorState) : Run :=
  if String.eqb (trim prompt) "" then {| status := st; calls := []; handed := None |}
  else
    match plan with
    | Rejected => {| status := failed_status; calls := [CallPlan prompt]; handed := None |}
    | Resolved p =>
        let cs := [CallPlan prompt; CallImage (plan_imagePrompt p); CallAudio (plan_script p)] in
        let imageUrl' := match image with Resolved u => u | Rejected => fallback_image end in
        match audio with
        | Rejected => {| status := failed_status; calls := cs; handed := None |}
        | Resolved audioBuffer' =>
            let newSession :=
              {| id := now; title := plan_title p; description := plan_description p;
                 imagePrompt := plan_imagePrompt p; script := plan_script p;
                 imageUrl := Some imageUrl'; audioBuffer := Some audioBuffer' |} in
            {| status := {| isGeneratingScript := false; isGeneratingImage := false;
                            isGeneratingAudio := false; error := None |};
               calls := cs; handed := Some newSession |}
        end
    end.

End Generator.

(* ------------------------------------------------------------------ *)
(** ** The application shell ([App.tsx]) *)

Module App.

Inductive AppMode := HOME | CREATE | CHAT | PLAYER.

Record AppState := { currentMode : AppMode; activeSession : option MeditationSession }.

Definition initial : AppState := {| currentMode := CREATE; activeSession := None |}.

Definition handleSessionCreated (session : MeditationSession) (s : AppState) : AppState :=
  {| currentMode := PLAYER; activeSession := Some session |}.

Definition closePlayer (s : AppState) : AppState :=
  {| currentMode := CREATE; activeSession := activeSession s |}.

(** The user and component events of the shell: the two navigation buttons
    (lines 134-145), [onSessionCreated] from the generator, and [onClose]
    from the player. *)
Inductive AppEvent :=
| NavCreate
| NavChat
| SessionCreated (session : MeditationSession)
| ClosePlayer.

Definition app_step (ev : AppEvent) (s : AppState) : AppState :=
  match ev with
  | NavCreate => {| currentMode := CREATE; activeSession := activeSession s |}
  | NavChat => {| currentMode := CHAT; activeSession := activeSession s |}
  | SessionCreated session => handleSessionCreated session s
  | ClosePlayer => closePlayer s
  end.

Definition app_run (evs : list AppEvent) : AppState :=
  fold_left (fun s ev => app_step ev s) evs initial.

(** [currentMode === AppMode.PLAYER && activeSession] (line 176): the
    player overlay is rendered. *)
Definition showsPlayer (s : AppState) : bool :=
  match currentMode s, activeSession s with
  | PLAYER, Some _ => true
  | _, _ => false
  end.

(** The session of the last [SessionCreated] event, if any. *)
Definition last_created (evs : list AppEvent) : option MeditationSession :=
  fold_left (fun acc ev => match ev with SessionCreated x => Some x | _ => acc end) evs None.

End App.

(* ------------------------------------------------------------------ *)
(** ** The image service ([geminiService.ts]) *)

Module Service.
Import Generator.

(** [getApiKey] (lines 506-513): [apiKey] is [process.env.API_KEY]; a
    missing or empty key throws. *)
Definition getApiKey (apiKey : option string) : Result string :=
  match apiKey with
  | Some key => if String.eqb key "" then Rejected else Resolved key
  | None => Rejected
  end.

Definition image_prompt_prefix : string :=
  "High quality, photorealistic, calm, cinematic lighting, 8k resolution, soft colors: ".

Definition data_url_prefix : string := "data:image/jpeg;base64,".

(** [generateMeditationImage] (lines 572-592). [respond] is how the image
    request with the given prompt settles: rejected, or resolved with the
    [imageBytes] of the first generated image ([None] when absent). The
    result lists the prompts of the requests sent, and the outcome. *)
Definition generateMeditationImage (apiKey : option string)
    (respond : string -> Result (option string)) (prompt : string)
    : list string * Result string :=
  match getApiKey apiKey with
  | Rejected => ([], Rejected)
  | Resolved _ =>
      let enhancedPrompt := String.append image_prompt_prefix prompt in
      match respond enhancedPrompt with
      | Rejected => ([enhancedPrompt], Rejected)
      | Resolved base64ImageBytes =>
          match base64ImageBytes with
          | Some b =>
              if String.eqb b "" then ([enhancedPrompt], Rejected)
              else ([enhancedPrompt], Resolved (String.append data_url_prefix b))
          | None => ([enhancedPrompt], Rejected)
          end
      end
  end.

End Service.

(* ------------------------------------------------------------------ *)
(** ** Sample data *)

Module Demo.

(** One second of audio at 24 kHz. *)
Definition one_second : AudioBuffer := {| length := 24000; sampleRate := 24000 |}.

Definition session_with_audio : MeditationSession :=
  {| id := "1"; title := "Ocean Sunset Calm"; description := "Breathe with the waves.";
     imagePrompt := "ocean at sunset"; script := "Breathe in."; imageUrl := None;
     audioBuffer := Some one_second |}.

Definition session_without_audio : MeditationSession :=
  {| id := "2"; title := "Silent"; description := "No voiceover.";
     imagePrompt := "forest"; script := "Rest."; imageUrl := None;
     audioBuffer := None |}.

Definition plan : Generator.Plan :=
  {| Generator.plan_title := "Ocean Sunset Calm"; Generator.plan_description := "Breathe with the waves.";
     Generator.plan_script := "Breathe in."; Generator.plan_imagePrompt := "ocean at sunset" |}.

Definition idle : Generator.GeneratorState :=
  {| Generator.isGeneratingScript := false; Generator.isGeneratingImage := false;
     Generator.isGeneratingAudio := false; Generator.error := None |}.

End Demo.

(* ================================================================== *)
(** * Properties *)

(* ------------------------------------------------------------------ *)
(** ** The session generator *)

Module GeneratorProps.
Import Generator.

(** C5: in every run in which audio generation fails (the prompt is not
    blank and the plan was produced, so the audio call is issued), the run
    ends FAILED with the generic message and hands no session to the caller,
    whatever the image generation did. *)
Theorem audio_failure_is_fatal :
  forall prompt now p image st,
    trim prompt <> "" ->
    let r := handleGenerate prompt now (Resolved p) image Rejected st in
    In (CallAudio (plan_script p)) (calls r) /\
    status r = failed_status /\ error (status r) = Some generic_error /\
    handed r = None.
Proof.
  intros prompt now p image st Hne. unfold handleGenerate.
  destruct (String.eqb_spec (trim prompt) "") as [E|_]; [contradiction|].
  simpl. repeat split; auto 10.
Qed.

(** C6: in every run in which image generation fails and audio generation
    succeeds, the run does not fail and hands the caller a session whose
    [imageUrl] is the fallback placeholder and whose [audioBuffer] is the
    decoded buffer. *)
Theorem image_failure_uses_fallback :
  forall prompt now p buf st,
    trim prompt <> "" ->
    let r := handleGenerate prompt now (Resolved p) Rejected (Resolved buf) st in
    error (status r) = None /\
    handed r = Some {| id := now; title := plan_title p; description := plan_description p;
                       imagePrompt := plan_imagePrompt p; script := plan_script p;
                       imageUrl := Some fallback_image; audioBuffer := Some buf |}.
Proof.
  intros prompt now p buf st Hne. unfold handleGenerate.
  destruct (String.eqb_spec (trim prompt) "") as [E|_]; [contradiction|].
  split; reflexivity.
Qed.

(** C7: in every run in which plan generation fails, the only service call
    issued is the plan call (no image or audio call), the status is FAILED
    with the generic message and no session is handed over. *)
Theorem plan_failure_stops_pipeline :
  forall prompt now image audio st,
    trim prompt <> "" ->
    let r := handleGenerate prompt now Rejected image audio st in
    calls r = [CallPlan prompt] /\
    (forall c, In c (calls r) -> match c with CallImage _ | CallAudio _ => False | _ => True end) /\
    status r = failed_status /\ error (status r) = Some generic_error /\
    handed r = None.
Proof.
  intros prompt now image audio st Hne. unfold handleGenerate.
  destruct (String.eqb_spec (trim prompt) "") as [E|_]; [contradiction|].
  simpl. repeat split; auto.
  intros c [<- | []]. exact I.
Qed.

Lemma demo_prompt_nonblank : trim "ocean at sunset" <> "".
Proof. intro E; vm_compute in E; discriminate E. Qed.

Lemma audio_failure_is_fatal_witness :
  trim "ocean at sunset" <> "" /\
  handed (handleGenerate "ocean at sunset" "1" (Resolved Demo.plan) (Resolved "img") Rejected Demo.idle)
    = None.
Proof.
  split; [exact demo_prompt_nonblank|].
  pose proof (audio_failure_is_fatal "ocean at sunset" "1" Demo.plan (Resolved "img") Demo.idle
                demo_prompt_nonblank) as H.
  cbv zeta in H. destruct H as (_ & _ & _ & H). exact H.
Defined.

Lemma image_failure_uses_fallback_witness :
  trim "ocean at sunset" <> "" /\
  error (status (handleGenerate "ocean at sunset" "1" (Resolved Demo.plan) Rejected
                   (Resolved Demo.one_second) Demo.idle)) = None.
Proof.
  split; [exact demo_prompt_nonblank|].
  pose proof (image_failure_uses_fallback "ocean at sunset" "1" Demo.plan Demo.one_second Demo.idle
                demo_prompt_nonblank) as H.
  cbv zeta in H. destruct H as (H & _). exact H.
Defined.

Lemma plan_failure_stops_pipeline_witness :
  trim "ocean at sunset" <> "" /\
  calls (handleGenerate "ocean at sunset" "1" Rejected Rejected Rejected Demo.idle)
    = [CallPlan "ocean at sunset"].
Proof.
  split; [exact demo_prompt_nonblank|].
  pose proof (plan_failure_stops_pipeline "ocean at sunset" "1" Rejected Rejected Demo.idle
                demo_prompt_nonblank) as H.
  cbv zeta in H. destruct H as (H & _). exact H.
Defined.

End GeneratorProps.

(* ------------------------------------------------------------------ *)
(** ** The application shell *)

Module AppProps.
Import App.

(** C9: closing the player switches to the Generate view ([CREATE]) and
    leaves the active session binding as it was. *)
Theorem closePlayer_keeps_session :
  forall s, currentMode (closePlayer s) = CREATE /\ activeSession (closePlayer s) = activeSession s.
Proof. intros s. split; reflexivity. Qed.

End AppProps.

(* ------------------------------------------------------------------ *)
(** ** The chat panel *)

Module ChatProps.
Import Chat.

Lemma reply_messages_length :
  forall t2 r, answered r = true -> List.length (reply_messages t2 r) = 1%nat.
Proof.
  intros t2 [[txt|]|] H; simpl in *; try discriminate; try reflexivity.
  now rewrite H.
Qed.

Lemma exchange_appends :
  forall s e, isLoading s = false -> trim (typed e) <> "" ->
    messages (exchange s e) = messages s ++ exchange_messages e /\
    isLoading (exchange s e) = false.
Proof.
  intros s e HL Hne. unfold exchange, handleSend, setInput; simpl.
  rewrite HL. destruct (String.eqb_spec (trim (typed e)) "") as [E|_]; [contradiction|].
  simpl. split; [|reflexivity].
  unfold exchange_messages.
  destruct (reply e) as [[txt|]|]; simpl;
    try destruct (negb (String.eqb txt ""));
    rewrite <- ?app_assoc; reflexivity.
Qed.

Lemma fold_exchanges :
  forall es s, isLoading s = false -> Forall (fun e => trim (typed e) <> "") es ->
    messages (fold_left exchange es s) = messages s ++ flat_map exchange_messages es /\
    isLoading (fold_left exchange es s) = false.
Proof.
  induction es as [|e es IH]; intros s HL HF; cbn [fold_left flat_map].
  - rewrite app_nil_r. auto.
  - inversion HF as [|? ? He Hes]; subst.
    destruct (exchange_appends s e HL He) as [Hm Hl].
    destruct (IH (exchange s e) Hl Hes) as [Hm' Hl'].
    rewrite Hm', Hm, <- app_assoc. auto.
Qed.

Lemma flat_map_answered_length :
  forall es, forallb (fun e => answered (reply e)) es = true ->
    List.length (flat_map exchange_messages es) = (2 * List.length es)%nat.
Proof.
  induction es as [|e es IH]; intros H; simpl in *; [reflexivity|].
  apply andb_true_iff in H as [H1 H2].
  rewrite length_app. simpl. rewrite (reply_messages_length _ _ H1), (IH H2). lia.
Qed.

(** C4 (counterexample): one send whose service response is the empty
    string adds only the user message, so the transcript has 2 entries, not
    1 + 2 * 1. *)
Lemma empty_response_breaks_count :
  let es := [{| typed := "hi"; sentAt := 1; repliedAt := 2; reply := Responded (Some "") |}] in
  List.length (messages (run 0 es)) = 2%nat /\
  List.length (messages (run 0 es)) <> (1 + 2 * List.length es)%nat.
Proof. vm_compute. split; [reflexivity | discriminate]. Qed.

(** C4 (amended): after N sends of non-blank input, the transcript is the
    greeting followed, in send order, by each user message and the reply it
    received: the response when it is a non-empty string, the connectivity
    failure message when the call failed, nothing when the response is empty
    or absent. When every send got a non-empty response or a failure, the
    transcript has exactly 1 + 2N entries. *)
Theorem transcript_after_sends :
  forall t0 es, Forall (fun e => trim (typed e) <> "") es ->
    messages (run t0 es) =
      {| role := model; text := greeting_text; timestamp := t0 |} :: flat_map exchange_messages es /\
    (forallb (fun e => answered (reply e)) es = true ->
     List.length (messages (run t0 es)) = (1 + 2 * List.length es)%nat).
Proof.
  intros t0 es HF. unfold run.
  destruct (fold_exchanges es (initial t0) eq_refl HF) as [Hm _].
  rewrite Hm. split; [reflexivity|].
  intros HA. simpl. rewrite (flat_map_answered_length es HA). reflexivity.
Qed.

Lemma transcript_after_sends_witness :
  let es := [{| typed := "hi"; sentAt := 1; repliedAt := 2; reply := Failed |};
             {| typed := "calm me"; sentAt := 3; repliedAt := 4; reply := Responded (Some "Breathe.") |}] in
  Forall (fun e => trim (typed e) <> "") es /\
  List.length (messages (run 0 es)) = 5%nat.
Proof.
  cbv zeta.
  assert (HF : Forall (fun e => trim (typed e) <> "")
     [{| typed := "hi"; sentAt := 1; repliedAt := 2; reply := Failed |};
      {| typed := "calm me"; sentAt := 3; repliedAt := 4; reply := Responded (Some "Breathe.") |}]).
  { repeat constructor; intro E; vm_compute in E; discriminate E. }
  split; [exact HF|].
  apply (proj2 (transcript_after_sends 0 _ HF)). vm_compute. reflexivity.
Defined.

End ChatProps.

(* ------------------------------------------------------------------ *)
(** ** The media player: commands, errors, the play guard *)

Module PlayerProps.
Import Player.

Lemma commit_same : forall ok s, commit ok s s = s.
Proof.
  intros ok s. unfold commit. rewrite !eqb_reflx. reflexivity.
Qed.

Lemma onresult_dispatch :
  forall session t s, onresult session t s = dispatch_spec session t s.
Proof.
  intros session t s. unfold onresult, dispatch_spec, first_match.
  set (c := trim (toLowerCase t)).
  cbn [find keyword_sets pause_keywords play_keywords mute_keywords unmute_keywords
       ambient_on_keywords ambient_off_keywords existsb].
  rewrite !orb_false_r, !orb_assoc.
  case_eq (includes c "pause" || includes c "stop" || includes c "wait"); intros; [reflexivity|].
  case_eq (includes c "play" || includes c "start" || includes c "resume" || includes c "begin");
    intros; [reflexivity|].
  case_eq (includes c "mute" || includes c "quiet" || includes c "silence"); intros; [reflexivity|].
  case_eq (includes c "unmute" || includes c "sound" || includes c "volume"); intros; [reflexivity|].
  case_eq (includes c "nature on" || includes c "ambient on" || includes c "background on");
    intros; [reflexivity|].
  case_eq (includes c "nature off" || includes c "ambient off" || includes c "background off");
    intros; reflexivity.
Qed.

(** C1 (counterexample): "volume" is an unmute keyword; said while muted
    (in a reachable state) it unmutes, so it is not a no-op. *)
Lemma volume_while_muted_unmutes :
  let sess := Demo.session_with_audio in
  let s := step sess true EvToggleMute (mount sess true) in
  reachable sess s /\ isMuted s = true /\
  isMuted (step sess true (EvResult "volume") s) = false.
Proof.
  split; [|split; vm_compute; reflexivity].
  apply reach_step; [apply reach_mount; exact I | exact I | exact I].
Qed.

(** C1 (amended): the handler of a recognized utterance is the priority
    dispatcher: after lower-casing and trimming, the first keyword set (pause,
    play, mute, unmute, ambient on, ambient off) one of whose keywords occurs
    in the utterance is the only one considered, and its action fires only
    if its condition holds (playing, not playing, unmuted, muted, ambient
    off, ambient on). A command whose condition fails for the current state
    (or that matches no set) leaves the whole player state unchanged. *)
Theorem voice_commands_priority :
  forall session ok t s,
    onresult session t s = dispatch_spec session t s /\
    (redundant_command session t s = true -> step session ok (EvResult t) s = s).
Proof.
  intros session ok t s. split; [apply onresult_dispatch|].
  intros H. unfold step, apply_event. rewrite onresult_dispatch.
  unfold redundant_command, dispatch_spec in *.
  destruct (first_match session t) as [[[kws g] a]|].
  - destruct (g s); [discriminate|]. apply commit_same.
  - apply commit_same.
Qed.

Lemma voice_commands_priority_witness :
  redundant_command Demo.session_with_audio "Pause please" initial = true /\
  step Demo.session_with_audio true (EvResult "Pause please") initial = initial.
Proof.
  split; [vm_compute; reflexivity|].
  apply (proj2 (voice_commands_priority Demo.session_with_audio true "Pause please" initial)).
  vm_compute; reflexivity.
Defined.

Lemma onerror_cases :
  forall gen e s,
    onerror gen e s =
      if is_permission_error e && Nat.eqb gen (recGen s) then set_isListening false s else s.
Proof.
  intros gen e s. unfold onerror, is_permission_error.
  case_eq (String.eqb e "no-speech"); intros E1.
  { apply String.eqb_eq in E1; subst; reflexivity. }
  case_eq (String.eqb e "aborted"); intros E2.
  { apply String.eqb_eq in E2; subst; reflexivity. }
  simpl. destruct ((e =? "not-allowed") || (e =? "service-not-allowed")); reflexivity.
Qed.

(** C8 (counterexample): the permission-denied error of a recognizer whose
    effect instance has been cleaned up (listening was turned off and on
    again since it was started) leaves the listening flag on. *)
Lemma stale_permission_error_ignored :
  let sess := Demo.session_with_audio in
  let s := step sess true EvToggleVoice
             (step sess true EvToggleVoice (step sess true EvToggleVoice (mount sess true))) in
  reachable sess s /\ isListening s = true /\ recGen s = 3%nat /\
  isListening (step sess true (EvError 1 "not-allowed") s) = true.
Proof.
  split; [|vm_compute; auto].
  repeat (apply reach_step; [|exact I|exact I]).
  apply reach_mount; exact I.
Qed.

(** C8 (amended): no recognition error changes the play/pause, mute,
    ambient, progress or timing state. "no-speech" and "aborted" errors, and
    every error that is not a permission error, leave the whole state
    unchanged; a permission error ("not-allowed", "service-not-allowed")
    raised by the recognizer of the active effect instance sets listening to
    false, and one raised by a cleaned-up instance changes nothing. *)
Theorem recognition_errors :
  forall session ok gen e s,
    let s' := step session ok (EvError gen e) s in
    isPlaying s' = isPlaying s /\ isMuted s' = isMuted s /\ isAmbientOn s' = isAmbientOn s /\
    progress s' = progress s /\ pauseTime s' = pauseTime s /\ startTime s' = startTime s /\
    sourceRef s' = sourceRef s /\ ambientPlaying s' = ambientPlaying s /\
    ((e = "no-speech" \/ e = "aborted") -> s' = s) /\
    (is_permission_error e = false -> s' = s) /\
    (is_permission_error e = true -> gen = recGen s -> isListening s' = false) /\
    (is_permission_error e = true -> gen <> recGen s -> s' = s).
Proof.
  intros session ok gen e s s'. subst s'. unfold step, apply_event.
  rewrite onerror_cases.
  destruct (is_permission_error e) eqn:P; simpl.
  - destruct (Nat.eqb_spec gen (recGen s)) as [G|G].
    + unfold commit. cbn. rewrite !eqb_reflx. cbn.
      destruct (isListening s); cbn; repeat split; try reflexivity.
      all: try (intros [-> | ->]; simpl in P; discriminate P).
      all: try (intros Hf; discriminate Hf).
      all: intros _ Hn; contradiction.
    + rewrite commit_same. repeat split; auto.
      intros _ Hg; contradiction.
  - rewrite commit_same. repeat split; auto; intros Hf; discriminate Hf.
Qed.

Lemma recognition_errors_witness :
  let s' := step Demo.session_with_audio true (EvError 0 "no-speech") initial in
  s' = initial /\ isPlaying s' = isPlaying initial.
Proof.
  pose proof (recognition_errors Demo.session_with_audio true 0 "no-speech" initial) as H.
  cbv zeta in H. destruct H as (Hp & _ & _ & _ & _ & _ & _ & _ & Hn & _).
  split; [apply Hn; left; reflexivity | exact Hp].
Defined.

(** C10: when the audio context, the session's audio buffer or the gain
    node is missing, [playAudio] does nothing: no source is started and the
    state is unchanged. In particular the auto-play on mount of a session
    without audio leaves the player in its first-render state: not playing,
    progress 0, pause offset 0, no source. *)
Theorem playAudio_guard_noop :
  forall session ok s,
    (audioContext s = None \/ audioBuffer session = None \/ gainNode s = None) ->
    playAudio session s = s /\
    (audioBuffer session = None ->
     mount session ok = initial /\ isPlaying (mount session ok) = false /\
     progress (mount session ok) = 0 /\ pauseTime (mount session ok) = 0 /\
     sourceRef (mount session ok) = None).
Proof.
  intros session ok s H.
  assert (G : forall s0, (audioContext s0 = None \/ audioBuffer session = None \/ gainNode s0 = None) ->
                         playAudio session s0 = s0).
  { intros s0 [H0|[H0|H0]]; unfold playAudio; rewrite H0;
      [reflexivity | destruct (audioContext s0); reflexivity
      | destruct (audioContext s0), (audioBuffer session); reflexivity]. }
  split; [apply G, H|].
  intros HB. assert (M : mount session ok = initial).
  { unfold mount. rewrite (G initial) by (right; left; exact HB). apply commit_same. }
  rewrite M. repeat split; reflexivity.
Qed.

Lemma playAudio_guard_noop_witness :
  playAudio Demo.session_without_audio initial = initial /\
  isPlaying (mount Demo.session_without_audio true) = false.
Proof.
  destruct (playAudio_guard_noop Demo.session_without_audio true initial
              (or_intror (or_introl eq_refl))) as [H1 H2].
  split; [exact H1 | apply (H2 eq_refl)].
Defined.

End PlayerProps.

(* ------------------------------------------------------------------ *)
(** ** The media player: the playback invariant *)

Module PlaybackProps.
Import Player.

Ltac crush_matches :=
  repeat (match goal with |- context [match ?x with _ => _ end] => destruct x end);
  reflexivity.

Section Playback.

Variable session : MeditationSession.

Lemma dur_pos : 0 < dur session.
Proof.
  unfold dur. destruct (audioBuffer session) as [b|]; [|lra].
  destruct (Qeq_bool (duration b) 0) eqn:E; [lra|].
  assert (H0 : 0 <= duration b).
  { unfold duration, Qle; simpl. lia. }
  assert (H1 : ~ duration b == 0).
  { intro H. apply Qeq_bool_iff in H. congruence. }
  destruct (Qle_lt_or_eq _ _ H0) as [H|H]; [exact H|].
  exfalso; apply H1; symmetry; exact H.
Qed.

Lemma percent_mono : forall x y, x <= y -> percent_of session x <= percent_of session y.
Proof.
  intros x y H. unfold percent_of, Qdiv.
  apply Qmult_le_compat_r; [|lra].
  apply Qmult_le_compat_r; [exact H|].
  apply Qlt_le_weak, Qinv_lt_0_compat, dur_pos.
Qed.

(** The invariant of the reachable states: the audio context and gain node
    exist; while playing, a source exists, exactly one animation frame (the
    one recorded in [animationFrameRef]) is pending, and the displayed
    progress is below 100 and at most the progress of the current clock;
    while not playing, no frame is pending. *)
Definition Inv (s : Player) : Prop :=
  audioContext s <> None /\ gainNode s <> None /\
  (isPlaying s = true ->
     sourceRef s <> None /\ animationFrame s <> 0%nat /\
     rafPending s = Some (animationFrame s) /\ progress s < 100 /\
     (forall t, audioContext s = Some t -> progress s <= percent_of session (t - startTime s))) /\
  (isPlaying s = false -> rafPending s = None).

Lemma Inv_same :
  forall s s', Inv s ->
    isPlaying s' = isPlaying s -> progress s' = progress s -> audioContext s' = audioContext s ->
    (gainNode s <> None -> gainNode s' <> None) -> sourceRef s' = sourceRef s ->
    startTime s' = startTime s -> animationFrame s' = animationFrame s ->
    rafPending s' = rafPending s -> Inv s'.
Proof.
  intros s s' (C & G & P & NP) E1 E2 E3 E4 E5 E6 E7 E8.
  split; [congruence|]. split; [auto|]. split.
  - intros Hs. rewrite E1 in Hs. destruct (P Hs) as (P1 & P2 & P3 & P4 & P5).
    rewrite E5, E7, E8, E2, E6. repeat split; auto.
    intros t Ht. rewrite E3 in Ht. apply (P5 t Ht).
  - intros Hs. rewrite E1 in Hs. rewrite E8. apply (NP Hs).
Qed.

Lemma Inv_updateProgress :
  forall s, audioContext s <> None -> gainNode s <> None -> sourceRef s <> None ->
    rafPending s = None -> isPlaying s = true -> Inv (updateProgress session s).
Proof.
  intros s C G Src R Pl. unfold updateProgress.
  destruct (audioContext s) as [t|] eqn:Ct; [|contradiction].
  destruct (Qle_bool 100 (percent_of session (t - startTime s))) eqn:E.
  - unfold Inv; cbn. repeat split; try congruence.
  - unfold Inv, requestAnimationFrame; cbn. rewrite Ct.
    repeat split; try congruence.
    + apply Qnot_le_lt. intro Hle. apply Qle_bool_iff in Hle. congruence.
    + intros t' Ht'. inversion Ht'; subst. apply Qle_refl.
Qed.

Lemma Inv_playAudio : forall s, Inv s -> isPlaying s = false -> Inv (playAudio session s).
Proof.
  intros s I Pl. pose proof I as (C & G & _ & NP). unfold playAudio.
  destruct (audioContext s) as [t|] eqn:Ct; [|exact I].
  destruct (audioBuffer session); [|exact I].
  destruct (gainNode s) eqn:Gn; [|exact I].
  apply Inv_updateProgress; cbn; try congruence. apply NP, Pl.
Qed.

Lemma Inv_pauseAudio : forall s, Inv s -> isPlaying s = true -> Inv (pauseAudio s).
Proof.
  intros s I Pl. pose proof I as (C & G & P & _).
  destruct (P Pl) as (Src & Af & R & _).
  unfold pauseAudio.
  destruct (sourceRef s) as [src|]; [|contradiction].
  destruct (audioContext s) as [t|] eqn:Ct; [|contradiction].
  cbn. destruct (Nat.eqb_spec (animationFrame s) 0) as [A|A]; [contradiction|].
  unfold cancelAnimationFrame; cbn. rewrite R, Nat.eqb_refl.
  unfold Inv; cbn. repeat split; try congruence; discriminate.
Qed.

Lemma onresult_cases :
  forall t s,
    onresult session t s = s \/
    (isPlaying s = true /\ onresult session t s = pauseAudio s) \/
    (isPlaying s = false /\ onresult session t s = playAudio session s) \/
    onresult session t s = toggleMute s \/
    onresult session t s = set_isAmbientOn true s \/
    onresult session t s = set_isAmbientOn false s.
Proof.
  intros t s. rewrite PlayerProps.onresult_dispatch. unfold dispatch_spec.
  destruct (first_match session t) as [x|] eqn:F; [|left; reflexivity].
  unfold first_match in F. apply find_some in F as [Hin _].
  unfold keyword_sets in Hin.
  repeat destruct Hin as [<- | Hin]; try contradiction; cbn;
    match goal with
    | |- context [if ?b then _ else _] => destruct b eqn:B
    end; try apply negb_true_iff in B; auto 10.
Qed.

Lemma Inv_commit : forall ok old s, Inv s -> Inv (commit ok old s).
Proof.
  intros ok old s I. unfold commit.
  repeat (match goal with |- context [if ?b then _ else _] => destruct b end);
    apply (Inv_same s); auto.
Qed.

Lemma Inv_apply : forall ev s, event_ok ev -> Inv s -> Inv (apply_event session ev s).
Proof.
  intros ev s Hev I. pose proof I as (C & G & P & NP).
  destruct ev; cbn [apply_event].
  - unfold togglePlay. destruct (isPlaying s) eqn:Pl.
    + apply Inv_pauseAudio; auto.
    + apply Inv_playAudio; auto.
  - unfold toggleMute. destruct (gainNode s) eqn:Gn; [|exact I].
    apply (Inv_same s); auto; cbn; congruence.
  - apply (Inv_same s); auto.
  - apply (Inv_same s); auto.
  - unfold onFrame. destruct (rafPending s) eqn:R; [|exact I].
    destruct (isPlaying s) eqn:Pl.
    + destruct (P eq_refl) as (Src & _).
      apply Inv_updateProgress; cbn; auto.
    + pose proof (NP eq_refl) as R2. congruence.
  - (* the clock advances *)
    cbn in Hev. unfold advance. split; [|split; [exact G|split]]; cbn.
    + destruct (audioContext s); [discriminate | contradiction].
    + intros Hs. destruct (P Hs) as (P1 & P2 & P3 & P4 & P5). repeat split; auto.
      intros t' Ht'. destruct (audioContext s) as [t|] eqn:Ct; [|discriminate].
      cbn in Ht'. inversion Ht'; subst.
      apply Qle_trans with (percent_of session (t - startTime s)); [apply P5; reflexivity|].
      apply percent_mono. lra.
    + apply NP.
  - destruct (onresult_cases transcript s) as [E|[[Pl E]|[[Pl E]|[E|[E|E]]]]]; rewrite E.
    + exact I.
    + apply Inv_pauseAudio; auto.
    + apply Inv_playAudio; auto.
    + unfold toggleMute. destruct (gainNode s) eqn:Gn; [|exact I].
      apply (Inv_same s); auto; cbn; congruence.
    + apply (Inv_same s); auto.
    + apply (Inv_same s); auto.
  - rewrite PlayerProps.onerror_cases.
    destruct (is_permission_error error && Nat.eqb gen (recGen s)); [|exact I].
    apply (Inv_same s); auto.
Qed.

Lemma Inv_step : forall ok ev s, event_ok ev -> Inv s -> Inv (step session ok ev s).
Proof.
  intros ok ev s Hev I. unfold step. apply Inv_commit, Inv_apply; auto.
Qed.

Lemma Inv_mount : forall ok, Inv (mount session ok).
Proof.
  intros ok. unfold mount. apply Inv_commit, Inv_playAudio; [|reflexivity].
  unfold Inv; cbn. repeat split; congruence.
Qed.

Lemma Inv_reach : forall amb s, reach session amb s -> Inv s.
Proof.
  intros amb s R. induction R.
  - apply Inv_mount.
  - apply Inv_step; auto.
Qed.

Lemma commit_keeps :
  forall ok old s,
    isPlaying (commit ok old s) = isPlaying s /\ isAmbientOn (commit ok old s) = isAmbientOn s /\
    progress (commit ok old s) = progress s /\ pauseTime (commit ok old s) = pauseTime s /\
    startTime (commit ok old s) = startTime s /\ sourceRef (commit ok old s) = sourceRef s /\
    rafPending (commit ok old s) = rafPending s /\ audioContext (commit ok old s) = audioContext s.
Proof.
  intros ok old s. unfold commit.
  repeat (match goal with |- context [if ?b then _ else _] => destruct b end);
    repeat split.
Qed.

Lemma commit_ambient :
  forall ok old s,
    ambientPlaying (commit ok old s) =
      if Bool.eqb (isPlaying old) (isPlaying s) && Bool.eqb (isAmbientOn old) (isAmbientOn s)
      then ambientPlaying s else isPlaying s && isAmbientOn s && ok.
Proof.
  intros ok old s. unfold commit.
  repeat (match goal with |- context [if ?b then _ else _] => destruct b end); reflexivity.
Qed.

Lemma percent_shift :
  forall t p, percent_of session (t - (t - p)) == percent_of session p.
Proof.
  intros t p. unfold percent_of, Qdiv.
  setoid_replace (t - (t - p)) with p by ring. reflexivity.
Qed.

Lemma tick_monotone :
  forall ok s, Inv s -> isPlaying s = true -> progress s <= progress (step session ok EvFrame s).
Proof.
  intros ok s I Pl. destruct I as (C & G & P & _).
  destruct (P Pl) as (_ & _ & R & Lt & Le).
  unfold step. rewrite (proj1 (proj2 (proj2 (commit_keeps _ _ _)))).
  cbn [apply_event]. unfold onFrame. rewrite R. unfold updateProgress. cbn.
  destruct (audioContext s) as [t|] eqn:Ct; [|contradiction].
  destruct (Qle_bool 100 (percent_of session (t - startTime s))); cbn.
  - apply Qlt_le_weak, Lt.
  - apply Le; reflexivity.
Qed.

End Playback.

(** C2: while PLAYING, every progress-loop tick leaves the displayed
    progress at least where it was; pausing stops the loop (no frame left
    pending), keeps the displayed progress exactly, and records the offset
    [currentTime - startTime], whose progress is at least the displayed one;
    a later play starts the source at the recorded offset, sets the epoch to
    [currentTime - offset], and (unless that offset is already past the end)
    resumes PLAYING with the progress of that offset, not from zero. *)
Theorem progress_monotone_pause_resume :
  forall session,
    (forall ok s, reachable session s -> isPlaying s = true ->
       progress s <= progress (step session ok EvFrame s)) /\
    (forall ok s, reachable session s -> isPlaying s = true ->
       let s' := step session ok EvTogglePlay s in
       isPlaying s' = false /\ progress s' = progress s /\ rafPending s' = None /\
       (exists t, audioContext s = Some t /\ pauseTime s' = t - startTime s) /\
       progress s <= percent_of session (pauseTime s')) /\
    (forall ok s, reachable session s -> isPlaying s = false -> audioBuffer session <> None ->
       let s' := step session ok EvTogglePlay s in
       sourceRef s' = Some {| srcOffset := pauseTime s; srcStopped := false |} /\
       (exists t, audioContext s = Some t /\ startTime s' = t - pauseTime s) /\
       (percent_of session (pauseTime s) < 100 ->
        isPlaying s' = true /\ progress s' == percent_of session (pauseTime s))).
Proof.
  intros session. split; [|split].
  - intros ok s R Pl. apply tick_monotone; [apply (Inv_reach session _ s R) | exact Pl].
  - intros ok s R Pl s'. subst s'.
    destruct (Inv_reach session _ s R) as (C & G & P & _).
    destruct (P Pl) as (Src & Af & Rf & Lt & Le).
    unfold step. destruct (commit_keeps ok s (apply_event session EvTogglePlay s))
      as (K1 & _ & K3 & K4 & _ & _ & K7 & _).
    rewrite K1, K3, K4, K7. cbn [apply_event]. unfold togglePlay. rewrite Pl.
    unfold pauseAudio.
    destruct (sourceRef s) as [src|]; [|contradiction].
    destruct (audioContext s) as [t|] eqn:Ct; [|contradiction].
    cbn. destruct (Nat.eqb_spec (animationFrame s) 0) as [A|A]; [contradiction|].
    unfold cancelAnimationFrame; cbn. rewrite Rf, Nat.eqb_refl. cbn.
    repeat split; try reflexivity.
    + exists t; split; reflexivity.
    + apply Le; reflexivity.
  - intros ok s R Pl HB s'. subst s'.
    destruct (Inv_reach session _ s R) as (C & G & _ & NP).
    unfold step. destruct (commit_keeps ok s (apply_event session EvTogglePlay s))
      as (K1 & _ & K3 & _ & K5 & K6 & _ & _).
    rewrite K1, K3, K5, K6. cbn [apply_event]. unfold togglePlay. rewrite Pl.
    unfold playAudio.
    destruct (audioContext s) as [t|] eqn:Ct; [|contradiction].
    destruct (audioBuffer session) as [b|]; [|contradiction].
    destruct (gainNode s) as [g|]; [|contradiction].
    unfold updateProgress; cbn. rewrite Ct.
    pose proof (percent_shift session t (pauseTime s)) as Hs.
    destruct (Qle_bool 100 (percent_of session (t - (t - pauseTime s)))) eqn:E; cbn.
    + split; [reflexivity|split; [exists t; split; reflexivity|]].
      intros Hlt. apply Qle_bool_iff in E. exfalso.
      set (x := percent_of session (t - (t - pauseTime s))) in *.
      set (y := percent_of session (pauseTime s)) in *. lra.
    + split; [reflexivity|split; [exists t; split; reflexivity|]].
      intros _. split; [reflexivity|exact Hs].
Qed.

Lemma progress_monotone_pause_resume_witness :
  let sess := Demo.session_with_audio in
  reachable sess (mount sess true) /\ isPlaying (mount sess true) = true /\
  progress (mount sess true) <= progress (step sess true EvFrame (mount sess true)).
Proof.
  cbv zeta.
  assert (R : reachable Demo.session_with_audio (mount Demo.session_with_audio true)).
  { apply reach_mount; exact I. }
  assert (Pl : isPlaying (mount Demo.session_with_audio true) = true).
  { vm_compute; reflexivity. }
  split; [exact R|split; [exact Pl|]].
  exact (proj1 (progress_monotone_pause_resume Demo.session_with_audio) true _ R Pl).
Defined.
Lemma pause_play_keep_ambient :
  forall session s,
    ambientPlaying (pauseAudio s) = ambientPlaying s /\ isAmbientOn (pauseAudio s) = isAmbientOn s /\
    ambientPlaying (playAudio session s) = ambientPlaying s /\
    isAmbientOn (playAudio session s) = isAmbientOn s.
Proof.
  intros session s.
  unfold pauseAudio, playAudio, updateProgress, requestAnimationFrame, cancelAnimationFrame.
  repeat split; crush_matches.
Qed.

Lemma apply_keeps_ambientPlaying :
  forall session ev s, ambientPlaying (apply_event session ev s) = ambientPlaying s.
Proof.
  intros session ev s. destruct (pause_play_keep_ambient session s) as (A1 & _ & A3 & _).
  destruct ev; cbn [apply_event].
  - unfold togglePlay. destruct (isPlaying s); auto.
  - unfold toggleMute. crush_matches.
  - reflexivity.
  - reflexivity.
  - unfold onFrame, updateProgress, requestAnimationFrame. crush_matches.
  - reflexivity.
  - destruct (PlaybackProps.onresult_cases session transcript s)
      as [E|[[_ E]|[[_ E]|[E|[E|E]]]]]; rewrite E; auto.
    unfold toggleMute. crush_matches.
  - rewrite PlayerProps.onerror_cases. crush_matches.
Qed.

Lemma ambient_only_when_both :
  forall session amb s, reach session amb s ->
    ambientPlaying s = true -> isPlaying s = true /\ isAmbientOn s = true.
Proof.
  intros session amb s R. induction R as [ok Hok|ok ev s R IH Hok Hev]; intros H.
  - unfold mount in H. rewrite commit_ambient in H.
    destruct (pause_play_keep_ambient session initial) as (_ & _ & A3 & A4).
    destruct (Bool.eqb (isPlaying initial) (isPlaying (playAudio session initial))
              && Bool.eqb (isAmbientOn initial) (isAmbientOn (playAudio session initial))).
    + rewrite A3 in H. discriminate.
    + unfold mount. destruct (commit_keeps ok initial (playAudio session initial)) as (K1 & K2 & _).
      rewrite K1, K2. apply andb_true_iff in H as [H _]. apply andb_true_iff in H. exact H.
  - unfold step in *. rewrite commit_ambient in H.
    destruct (commit_keeps ok s (apply_event session ev s)) as (K1 & K2 & _).
    rewrite K1, K2.
    destruct (Bool.eqb (isPlaying s) (isPlaying (apply_event session ev s))) eqn:E1;
    destruct (Bool.eqb (isAmbientOn s) (isAmbientOn (apply_event session ev s))) eqn:E2;
      cbn in H.
    + apply eqb_prop in E1, E2. rewrite <- E1, <- E2.
      apply IH. rewrite apply_keeps_ambientPlaying in H. exact H.
    + apply andb_true_iff in H as [H _]. apply andb_true_iff in H. exact H.
    + apply andb_true_iff in H as [H _]. apply andb_true_iff in H. exact H.
    + apply andb_true_iff in H as [H _]. apply andb_true_iff in H. exact H.
Qed.

(** C3 (counterexample): the ambient [play()] request can be rejected (a
    rejection is logged and ignored); toggling ambient on while playing
    then leaves PLAYING and ambient-on with the ambient track silent. *)
Lemma ambient_request_rejected_silent :
  let sess := Demo.session_with_audio in
  let s := step sess false EvToggleAmbient (mount sess true) in
  reachable sess s /\ isPlaying s = true /\ isAmbientOn s = true /\ ambientPlaying s = false.
Proof.
  split; [|vm_compute; auto].
  apply reach_step; [apply reach_mount; exact I | exact I | exact I].
Qed.

(** C3 (amended): in every reachable state the ambient track plays only if
    playback is PLAYING and ambient is on; when every ambient [play()]
    request succeeds, it plays exactly when PLAYING and ambient-on hold;
    toggling ambient while not playing, or play/pause while ambient is off,
    leaves the ambient track silent. *)
Theorem ambient_iff_playing_and_on :
  forall session,
    (forall s, reachable session s ->
       ambientPlaying s = true -> isPlaying s = true /\ isAmbientOn s = true) /\
    (forall s, reach session (fun ok => ok = true) s ->
       ambientPlaying s = isPlaying s && isAmbientOn s) /\
    (forall ok s, reachable session s -> isPlaying s = false ->
       ambientPlaying (step session ok EvToggleAmbient s) = false) /\
    (forall ok s, reachable session s -> isAmbientOn s = false ->
       ambientPlaying (step session ok EvTogglePlay s) = false).
Proof.
  intros session. split; [|split; [|split]].
  - intros s R. apply (ambient_only_when_both session _ s R).
  - intros s R. induction R as [ok Hok|ok ev s R IH Hok Hev].
    + subst ok. unfold mount. rewrite commit_ambient.
      destruct (commit_keeps true initial (playAudio session initial)) as (K1 & K2 & _).
      rewrite K1, K2.
      destruct (pause_play_keep_ambient session initial) as (_ & _ & A3 & A4).
      rewrite A3, A4.
      generalize (isPlaying (playAudio session initial)); intros b; destruct b; reflexivity.
    + subst ok. unfold step. rewrite commit_ambient.
      destruct (commit_keeps true s (apply_event session ev s)) as (K1 & K2 & _).
      rewrite K1, K2, apply_keeps_ambientPlaying, IH.
      destruct (Bool.eqb (isPlaying s) (isPlaying (apply_event session ev s))) eqn:E1;
      destruct (Bool.eqb (isAmbientOn s) (isAmbientOn (apply_event session ev s))) eqn:E2;
        cbn; rewrite ?andb_true_r; try reflexivity.
      apply eqb_prop in E1, E2. rewrite E1, E2. reflexivity.
  - intros ok s R Pl. unfold step. rewrite commit_ambient. cbn. rewrite Pl. cbn.
    destruct (isAmbientOn s); reflexivity.
  - intros ok s R Am. unfold step. rewrite commit_ambient.
    assert (K : isAmbientOn (apply_event session EvTogglePlay s) = isAmbientOn s).
    { cbn [apply_event]. unfold togglePlay.
      destruct (pause_play_keep_ambient session s) as (_ & A2 & _ & A4).
      destruct (isPlaying s); auto. }
    rewrite K, apply_keeps_ambientPlaying, Am, andb_false_r.
    destruct (Bool.eqb (isPlaying s) (isPlaying (apply_event session EvTogglePlay s))); cbn;
      [|reflexivity].
    destruct (ambientPlaying s) eqn:A; [|reflexivity].
    destruct (ambient_only_when_both session _ s R A) as [_ H]. congruence.
Qed.

Lemma ambient_iff_playing_and_on_witness :
  let sess := Demo.session_with_audio in
  let s := step sess true EvToggleAmbient (mount sess true) in
  reach sess (fun ok => ok = true) s /\ ambientPlaying s = isPlaying s && isAmbientOn s.
Proof.
  cbv zeta.
  assert (R : reach Demo.session_with_audio (fun ok => ok = true)
                (step Demo.session_with_audio true EvToggleAmbient (mount Demo.session_with_audio true))).
  { apply reach_step; [apply reach_mount; reflexivity | reflexivity | exact I]. }
  split; [exact R|].
  exact (proj1 (proj2 (ambient_iff_playing_and_on Demo.session_with_audio)) _ R).
Defined.

End PlaybackProps.

(* ------------------------------------------------------------------ *)
(** ** The media player: further properties *)

Module PlayerExtra.
Import Player.
Import PlaybackProps.

Section Extra.

Variable session : MeditationSession.

Lemma pause_play_keep_gain :
  forall s,
    gainNode (pauseAudio s) = gainNode s /\ isMuted (pauseAudio s) = isMuted s /\
    gainNode (playAudio session s) = gainNode s /\ isMuted (playAudio session s) = isMuted s.
Proof.
  intros s.
  unfold pauseAudio, playAudio, updateProgress, requestAnimationFrame, cancelAnimationFrame.
  repeat split;
    repeat (match goal with |- context [match ?x with _ => _ end] =>
              let E := fresh "E" in destruct x eqn:E end);
    cbn; congruence.
Qed.





(** The range invariant: the pause offset is never negative, the displayed
    progress stays within [0, 100], and while playing the start epoch is not
    ahead of the clock. *)
Definition Range (s : Player) : Prop :=
  0 <= pauseTime s /\ 0 <= progress s /\ progress s <= 100 /\
  (isPlaying s = true -> forall t, audioContext s = Some t -> startTime s <= t).

Lemma percent_nonneg : forall x, 0 <= x -> 0 <= percent_of session x.
Proof.
  intros x H. unfold percent_of, Qdiv.
  apply Qmult_le_0_compat; [|lra].
  apply Qmult_le_0_compat; [exact H|].
  apply Qinv_le_0_compat, Qlt_le_weak, dur_pos.
Qed.

Lemma Range_same :
  forall s s', Range s ->
    isPlaying s' = isPlaying s -> progress s' = progress s -> audioContext s' = audioContext s ->
    pauseTime s' = pauseTime s -> startTime s' = startTime s -> Range s'.
Proof.
  intros s s' (R1 & R2 & R3 & R4) E1 E2 E3 E4 E5.
  unfold Range. rewrite E1, E2, E3, E4, E5. auto.
Qed.

Lemma Range_updateProgress :
  forall s t, audioContext s = Some t -> startTime s <= t -> 0 <= pauseTime s ->
    Range (updateProgress session s).
Proof.
  intros s t Ct St Pt. unfold updateProgress. rewrite Ct.
  destruct (Qle_bool 100 (percent_of session (t - startTime s))) eqn:E.
  - unfold Range; cbn. repeat split; try lra; try discriminate.
  - unfold Range, requestAnimationFrame; cbn. repeat split.
    + exact Pt.
    + apply percent_nonneg. lra.
    + apply Qlt_le_weak, Qnot_le_lt. intro Hle. apply Qle_bool_iff in Hle. congruence.
    + intros _ t' Ht'. rewrite Ct in Ht'. inversion Ht'; subst. exact St.
Qed.

Lemma Range_playAudio : forall s, Range s -> Range (playAudio session s).
Proof.
  intros s Rg. pose proof Rg as (R1 & _).
  unfold playAudio.
  destruct (audioContext s) as [t|] eqn:Ct; [|exact Rg].
  destruct (audioBuffer session); [|exact Rg].
  destruct (gainNode s); [|exact Rg].
  apply (Range_updateProgress _ t); cbn; [exact Ct | lra | exact R1].
Qed.

Lemma Range_cancel : forall fid s, Range s -> Range (cancelAnimationFrame fid s).
Proof.
  intros fid s Rg. unfold cancelAnimationFrame.
  destruct (rafPending s) as [p|]; [destruct (Nat.eqb p fid)|]; exact Rg.
Qed.

Lemma Range_pauseAudio : forall s, Range s -> isPlaying s = true -> Range (pauseAudio s).
Proof.
  intros s Rg Pl. pose proof Rg as (R1 & R2 & R3 & R4). unfold pauseAudio.
  destruct (sourceRef s) as [src|]; [|exact Rg].
  destruct (audioContext s) as [t|] eqn:Ct; [|exact Rg].
  pose proof (R4 Pl t eq_refl) as St.
  assert (R' : Range (set_isPlaying false (set_pauseTime (t - startTime s)
                 (set_sourceRef (Some {| srcOffset := srcOffset src; srcStopped := true |}) s)))).
  { unfold Range; cbn. repeat split; try lra; try assumption; discriminate. }
  destruct (Nat.eqb _ 0); [exact R' | apply Range_cancel, R'].
Qed.

Lemma Range_apply :
  forall ev s, event_ok ev -> Inv session s -> Range s -> Range (apply_event session ev s).
Proof.
  intros ev s Hev I Rg. pose proof Rg as (R1 & R2 & R3 & R4).
  pose proof I as (C & G & P & NP).
  destruct ev; cbn [apply_event].
  - unfold togglePlay. destruct (isPlaying s) eqn:Pl.
    + apply Range_pauseAudio; auto.
    + apply Range_playAudio; auto.
  - unfold toggleMute. destruct (gainNode s); [|exact Rg].
    apply (Range_same s); auto.
  - apply (Range_same s); auto.
  - apply (Range_same s); auto.
  - unfold onFrame. destruct (rafPending s) eqn:Rf; [|exact Rg].
    destruct (isPlaying s) eqn:Pl.
    + destruct (audioContext s) as [t|] eqn:Ct; [|contradiction].
      apply (Range_updateProgress _ t); cbn; auto.
    + pose proof (NP eq_refl) as R0. congruence.
  - cbn in Hev. unfold advance, Range; cbn. repeat split; auto.
    intros Hs t' Ht'. destruct (audioContext s) as [t|] eqn:Ct; [|discriminate].
    cbn in Ht'. inversion Ht'; subst. pose proof (R4 Hs t eq_refl). lra.
  - destruct (onresult_cases session transcript s) as [E|[[Pl E]|[[Pl E]|[E|[E|E]]]]]; rewrite E.
    + exact Rg.
    + apply Range_pauseAudio; auto.
    + apply Range_playAudio; auto.
    + unfold toggleMute. destruct (gainNode s); [|exact Rg]. apply (Range_same s); auto.
    + apply (Range_same s); auto.
    + apply (Range_same s); auto.
  - rewrite PlayerProps.onerror_cases.
    destruct (is_permission_error error && Nat.eqb gen (recGen s)); [|exact Rg].
    apply (Range_same s); auto.
Qed.

Lemma Range_reach : forall amb s, reach session amb s -> Range s.
Proof.
  intros amb s R. induction R as [ok Hok|ok ev s R IH Hok Hev].
  - unfold mount. destruct (commit_keeps ok initial (playAudio session initial))
      as (K1 & _ & K3 & K4 & K5 & _ & _ & K8).
    apply (Range_same (playAudio session initial)); auto.
    apply Range_playAudio. unfold Range; cbn. repeat split; try lra; discriminate.
  - unfold step. destruct (commit_keeps ok s (apply_event session ev s))
      as (K1 & _ & K3 & K4 & K5 & _ & _ & K8).
    apply (Range_same (apply_event session ev s)); auto.
    apply Range_apply; auto. apply (Inv_reach session amb s R).
Qed.

End Extra.

End PlayerExtra.

Module PlayerExtraProps.
Import Player.
Import PlaybackProps.
Import PlayerExtra.

Lemma startsWith_includes : forall s p, startsWith s p = true -> includes s p = true.
Proof. intros s p H. destruct s; cbn [includes]; rewrite H; reflexivity. Qed.

Lemma includes_cons : forall a s p, includes s p = true -> includes (String a s) p = true.
Proof. intros a s p H. cbn [includes]. rewrite H. apply orb_true_r. Qed.

Lemma includes_unmute_mute : forall c, includes c "unmute" = true -> includes c "mute" = true.
Proof.
  induction c as [|a c IH]; intros H; cbn [includes] in H.
  - discriminate H.
  - apply orb_true_iff in H as [H|H]; [|apply includes_cons, IH, H].
    destruct c as [|b c']; cbn [startsWith] in H.
    + apply andb_prop in H as [_ H]. discriminate H.
    + apply andb_prop in H as [_ H]. apply andb_prop in H as [_ H].
      apply includes_cons, includes_cons, startsWith_includes, H.
Qed.



(** In every reachable state the recorded pause offset is non-negative and
    the displayed progress lies between 0 and 100 ([updateProgress] caps it at
    100, [pauseAudio] records [currentTime - startTime]). *)
Theorem progress_in_range :
  forall session amb s, reach session amb s ->
    0 <= pauseTime s /\ 0 <= progress s /\ progress s <= 100.
Proof.
  intros session amb s R. destruct (Range_reach session amb s R) as (R1 & R2 & R3 & _). auto.
Qed.

Lemma progress_in_range_witness :
  let s := step Demo.session_with_audio true EvTogglePlay
             (step Demo.session_with_audio true (EvAdvance (1#2)) (mount Demo.session_with_audio true)) in
  reach Demo.session_with_audio (fun _ => True) s /\
  0 <= pauseTime s /\ 0 <= progress s /\ progress s <= 100.
Proof.
  cbv zeta.
  assert (R : reach Demo.session_with_audio (fun _ => True)
    (step Demo.session_with_audio true EvTogglePlay
       (step Demo.session_with_audio true (EvAdvance (1#2)) (mount Demo.session_with_audio true)))).
  { apply reach_step; [|exact I|exact I].
    apply reach_step; [apply reach_mount; exact I | exact I | cbn; discriminate]. }
  split; [exact R | apply (progress_in_range _ _ _ R)].
Defined.

(** In every reachable state a progress-loop frame is pending exactly while
    the player is PLAYING, and it is the last frame requested: pausing and
    the natural end cancel or drop it, playing requests it. *)
Theorem frame_pending_iff_playing :
  forall session amb s, reach session amb s ->
    (isPlaying s = true <-> rafPending s <> None) /\
    (isPlaying s = true -> rafPending s = Some (animationFrame s)).
Proof.
  intros session amb s R. destruct (Inv_reach session amb s R) as (_ & _ & P & NP).
  split.
  - split.
    + intros Pl. destruct (P Pl) as (_ & _ & E & _). rewrite E. discriminate.
    + intros Hn. destruct (isPlaying s) eqn:Pl; [reflexivity|].
      exfalso. apply Hn, NP; reflexivity.
  - intros Pl. destruct (P Pl) as (_ & _ & E & _). exact E.
Qed.

Lemma frame_pending_iff_playing_witness :
  let s := mount Demo.session_with_audio true in
  reach Demo.session_with_audio (fun _ => True) s /\
  (isPlaying s = true <-> rafPending s <> None) /\
  (isPlaying s = true -> rafPending s = Some (animationFrame s)).
Proof.
  cbv zeta.
  assert (R : reach Demo.session_with_audio (fun _ => True) (mount Demo.session_with_audio true))
    by (apply reach_mount; exact I).
  split; [exact R | apply (frame_pending_iff_playing _ _ _ R)].
Defined.



(** The voice command "unmute" never unmutes: every command containing
    "unmute" also contains "mute", which the dispatcher tests first; so a
    muted player stays muted, and an unmuted one (with no pause or play
    keyword in the command) is muted by it. *)
Theorem unmute_command_mutes :
  forall session transcript s,
    includes (trim (toLowerCase transcript)) "unmute" = true ->
    (isMuted s = true -> isMuted (onresult session transcript s) = true) /\
    (isMuted s = false -> gainNode s <> None ->
     (includes (trim (toLowerCase transcript)) "pause" || includes (trim (toLowerCase transcript)) "stop"
      || includes (trim (toLowerCase transcript)) "wait") = false ->
     (includes (trim (toLowerCase transcript)) "play" || includes (trim (toLowerCase transcript)) "start"
      || includes (trim (toLowerCase transcript)) "resume"
      || includes (trim (toLowerCase transcript)) "begin") = false ->
     isMuted (onresult session transcript s) = true).
Proof.
  intros session transcript s Hu.
  pose proof (includes_unmute_mute _ Hu) as Hm.
  destruct (pause_play_keep_gain session s) as (_ & P2 & _ & P4).
  unfold onresult. cbv zeta.
  set (c := trim (toLowerCase transcript)) in *.
  rewrite Hm. cbn [orb].
  split.
  - intros Mt.
    destruct (includes c "pause" || includes c "stop" || includes c "wait");
      [destruct (isPlaying s); congruence|].
    destruct (includes c "play" || includes c "start" || includes c "resume" || includes c "begin");
      [destruct (negb (isPlaying s)); congruence|].
    rewrite Mt. cbn. exact Mt.
  - intros Mf Gn Np Npl. rewrite Np, Npl, Mf. cbn.
    unfold toggleMute. destruct (gainNode s); [cbn; rewrite Mf; reflexivity | contradiction].
Qed.

Lemma unmute_command_mutes_witness :
  includes (trim (toLowerCase "Unmute")) "unmute" = true /\
  isMuted (onresult Demo.session_with_audio "Unmute" initial) = true.
Proof.
  split; [reflexivity|].
  apply (proj2 (unmute_command_mutes Demo.session_with_audio "Unmute" initial eq_refl));
    [reflexivity | discriminate | reflexivity | reflexivity].
Defined.




End PlayerExtraProps.

(* ------------------------------------------------------------------ *)
(** ** The chat panel, the generator, the image service and the shell:
       further properties *)

Module ChatExtraProps.
Import Chat.
Import ChatProps.

Definition nonblank (e : Exchange) : bool := negb (String.eqb (trim (typed e)) "").

Lemma exchange_blank :
  forall s e, trim (typed e) = "" ->
    messages (exchange s e) = messages s /\ isLoading (exchange s e) = isLoading s.
Proof.
  intros s e H. unfold exchange, handleSend, setInput; cbn [input isLoading messages].
  rewrite H. cbn. auto.
Qed.

Lemma fold_exchanges_any :
  forall es s, isLoading s = false ->
    messages (fold_left exchange es s) = messages s ++ flat_map exchange_messages (filter nonblank es) /\
    isLoading (fold_left exchange es s) = false.
Proof.
  induction es as [|e es IH]; intros s HL; cbn [fold_left filter].
  - rewrite app_nil_r. auto.
  - unfold nonblank at 1. destruct (String.eqb_spec (trim (typed e)) "") as [B|B]; cbn [negb].
    + destruct (exchange_blank s e B) as [Hm Hl].
      destruct (IH (exchange s e)) as [Hm' Hl']; [congruence|].
      rewrite Hm', Hm. auto.
    + destruct (exchange_appends s e HL B) as [Hm Hl].
      destruct (IH (exchange s e) Hl) as [Hm' Hl'].
      cbn [flat_map]. rewrite Hm', Hm, <- app_assoc. auto.
Qed.

(** Sends of blank (empty or white-space only) input are ignored: for any
    sequence of sends the transcript is the greeting followed by the user
    message and reply of each non-blank send only, in order, and the panel is
    never left loading ([handleSend], lines 22-49). *)
Theorem blank_sends_ignored :
  forall t0 es,
    messages (run t0 es) =
      {| role := model; text := greeting_text; timestamp := t0 |}
        :: flat_map exchange_messages (filter nonblank es) /\
    isLoading (run t0 es) = false.
Proof.
  intros t0 es. unfold run.
  destruct (fold_exchanges_any es (initial t0) eq_refl) as [Hm Hl].
  rewrite Hm. auto.
Qed.

End ChatExtraProps.

Module GeneratorExtraProps.
Import Generator.
Import Service.

(** [handleGenerate] with a blank prompt issues no call, leaves the status as
    it was and hands no session; with a non-blank prompt the plan request is
    the first call, no spinner is left on at the end, and exactly one of two
    things happens: a session is handed to [onSessionCreated] and the error
    is cleared, or no session is handed and the generic error is shown. *)
Theorem generate_outcome :
  forall prompt now plan image audio st,
    let r := handleGenerate prompt now plan image audio st in
    (String.eqb (trim prompt) "" = true ->
       status r = st /\ calls r = [] /\ handed r = None) /\
    (String.eqb (trim prompt) "" = false ->
       hd_error (calls r) = Some (CallPlan prompt) /\
       isGeneratingScript (status r) = false /\ isGeneratingImage (status r) = false /\
       isGeneratingAudio (status r) = false /\
       ((handed r <> None /\ error (status r) = None) \/
        (handed r = None /\ error (status r) = Some generic_error))).
Proof.
  intros prompt now plan image audio st. cbv zeta. unfold handleGenerate.
  split; intros B; rewrite B; [auto|].
  destruct plan as [p|]; [destruct audio as [b|]|]; cbn;
    repeat split; try (left; split; [discriminate | reflexivity]);
    right; split; reflexivity.
Qed.

(** Composition of [handleGenerate] with [generateMeditationImage]: the
    session handed on takes its title, description, script and image prompt
    from the plan, its id from [now], and the audio buffer the voice-over
    call resolved with; its image is either the fallback picture or the data
    URL of the non-empty bytes returned for the enhanced plan prompt. *)
Theorem handed_session_fields :
  forall apiKey respond prompt now p audio st s,
    handed (handleGenerate prompt now (Resolved p)
              (snd (generateMeditationImage apiKey respond (plan_imagePrompt p))) audio st) = Some s ->
    id s = now /\ title s = plan_title p /\ description s = plan_description p /\
    script s = plan_script p /\ imagePrompt s = plan_imagePrompt p /\
    (exists b, audio = Resolved b /\ audioBuffer s = Some b) /\
    (imageUrl s = Some fallback_image \/
     exists bytes, bytes <> "" /\
       respond (String.append image_prompt_prefix (plan_imagePrompt p)) = Resolved (Some bytes) /\
       imageUrl s = Some (String.append data_url_prefix bytes)).
Proof.
  intros apiKey respond prompt now p audio st s H.
  unfold handleGenerate in H.
  destruct (String.eqb (trim prompt) ""); [discriminate H|].
  destruct audio as [b|]; [|discriminate H].
  cbn in H. injection H as <-. cbn.
  repeat split; [exists b; split; reflexivity|].
  unfold generateMeditationImage.
  destruct (getApiKey apiKey); [|left; reflexivity].
  destruct (respond (String.append image_prompt_prefix (plan_imagePrompt p))) as [[bytes|]|] eqn:Er;
    cbn; [|left; reflexivity | left; reflexivity].
  destruct (String.eqb_spec bytes "") as [Eb|Eb]; cbn; [left; reflexivity|].
  right. exists bytes. auto.
Qed.

Lemma handed_session_fields_witness :
  let respond := fun _ : string => Resolved (Some "QUJD") in
  let r := handleGenerate "calm ocean" "17" (Resolved Demo.plan)
             (snd (generateMeditationImage (Some "key") respond (plan_imagePrompt Demo.plan)))
             (Resolved Demo.one_second) Demo.idle in
  exists s, handed r = Some s /\
    id s = "17" /\ title s = plan_title Demo.plan /\ description s = plan_description Demo.plan /\
    script s = plan_script Demo.plan /\ imagePrompt s = plan_imagePrompt Demo.plan /\
    (exists b, Resolved Demo.one_second = Resolved b /\ audioBuffer s = Some b) /\
    (imageUrl s = Some fallback_image \/
     exists bytes, bytes <> "" /\
       respond (String.append image_prompt_prefix (plan_imagePrompt Demo.plan)) = Resolved (Some bytes) /\
       imageUrl s = Some (String.append data_url_prefix bytes)).
Proof.
  cbv zeta. eexists. split; [vm_compute; reflexivity|].
  apply (handed_session_fields (Some "key") (fun _ : string => Resolved (Some "QUJD"))
           "calm ocean" "17" Demo.plan (Resolved Demo.one_second) Demo.idle).
  vm_compute. reflexivity.
Defined.

(** [generateMeditationImage] (with [getApiKey]): a missing or empty API key
    rejects before any request is sent; otherwise exactly one request is
    sent, with the prompt prefixed by the quality instructions, and the
    call resolves only with [data:image/jpeg;base64,] followed by the
    non-empty bytes returned (absent or empty bytes reject). *)
Theorem image_service_outcome :
  forall apiKey respond prompt,
    ((apiKey = None \/ apiKey = Some "") ->
       generateMeditationImage apiKey respond prompt = ([], Rejected)) /\
    ((exists key, apiKey = Some key /\ key <> "") ->
       fst (generateMeditationImage apiKey respond prompt)
         = [String.append image_prompt_prefix prompt]) /\
    (forall url, snd (generateMeditationImage apiKey respond prompt) = Resolved url ->
       exists bytes, bytes <> "" /\
         respond (String.append image_prompt_prefix prompt) = Resolved (Some bytes) /\
         url = String.append data_url_prefix bytes).
Proof.
  intros apiKey respond prompt. unfold generateMeditationImage, getApiKey.
  split; [|split].
  - intros [-> | ->]; reflexivity.
  - intros (key & -> & Hk). destruct (String.eqb_spec key "") as [E|_]; [contradiction|].
    destruct (respond (String.append image_prompt_prefix prompt)) as [[b|]|];
      [destruct (String.eqb b "")| |]; reflexivity.
  - intros url H.
    destruct apiKey as [key|]; [|discriminate H].
    destruct (String.eqb key ""); [discriminate H|].
    destruct (respond (String.append image_prompt_prefix prompt)) as [[b|]|];
      [|discriminate H|discriminate H].
    destruct (String.eqb_spec b "") as [_|Eb]; [discriminate H|].
    cbn in H. injection H as <-. exists b. auto.
Qed.

End GeneratorExtraProps.

Module AppExtraProps.
Import App.

Lemma app_fold_session :
  forall evs s,
    activeSession (fold_left (fun s ev => app_step ev s) evs s) =
    fold_left (fun acc ev => match ev with SessionCreated x => Some x | _ => acc end)
      evs (activeSession s).
Proof.
  induction evs as [|ev evs IH]; intros s; [reflexivity|].
  cbn [fold_left]. rewrite IH. destruct ev; reflexivity.
Qed.

(** The shell: after any sequence of navigation clicks, generated sessions
    and player closes, the active session is the one most recently created
    (none before the first), and the player overlay is shown exactly when the
    last event was the creation of a session. *)
Theorem shell_session_and_overlay :
  forall evs,
    activeSession (app_run evs) = last_created evs /\
    showsPlayer (app_run []) = false /\
    (forall ev, showsPlayer (app_run (evs ++ [ev])) =
                match ev with SessionCreated _ => true | _ => false end).
Proof.
  intros evs. split; [|split].
  - apply app_fold_session.
  - reflexivity.
  - intros ev. unfold app_run. rewrite fold_left_app. cbn [fold_left].
    destruct ev; reflexivity.
Qed.

End AppExtraProps.
